(** * A shallow embedding of the XLS proc network interpreter

    The procs come from [xls/interpreter/proc_network_interpreter_test.cc]
    (the [ProcBuilder] calls of [CreateIotaProc], [CreateAccumProc],
    [CreatePassThroughProc], [CreateRunLengthDecoderProc] and the procs built
    inline in the tests).  The interpreter itself
    ([proc_network_interpreter.cc], [channel_queue.cc], [proc_interpreter.cc])
    is not part of the sources at hand; its definitions below are modelled
    from the specification and say so in their doc comments. *)

Set Warnings "-register-all,-notation-for-abbreviation".

From Stdlib Require Import ZArith Lia.
From stdpp Require Import base list gmap strings.

Open Scope Z_scope.

(* ------------------------------------------------------------------ *)
(** ** Values and types *)

(** An XLS [Value]: a bit vector of a fixed width, a tuple or a token. *)
Inductive Value : Type :=
| VBits (w : nat) (z : Z)
| VTuple (vs : list Value)
| VToken.

(** An XLS [Type], used for the row schema of a channel. *)
Inductive Ty : Type :=
| TBits (w : nat)
| TTuple (ts : list Ty)
| TToken.

Definition mask (w : nat) : Z := 2 ^ Z.of_nat w - 1.

(** [UBits(v, w)]. *)
Definition UBits (v : Z) (w : nat) : Value := VBits w (Z.land v (mask w)).

Fixpoint zero_of (t : Ty) : Value :=
  match t with
  | TBits w => VBits w 0
  | TTuple ts => VTuple (map zero_of ts)
  | TToken => VToken
  end.

Fixpoint value_eqb (a b : Value) : bool :=
  match a, b with
  | VBits w x, VBits w' y => Nat.eqb w w' && Z.eqb x y
  | VTuple xs, VTuple ys =>
      (fix go (xs ys : list Value) : bool :=
         match xs, ys with
         | [], [] => true
         | x :: xs', y :: ys' => value_eqb x y && go xs' ys'
         | _, _ => false
         end) xs ys
  | VToken, VToken => true
  | _, _ => false
  end.

(** A predicate operand: a bit vector, true when non-zero. *)
Definition pred_of (v : Value) : option bool :=
  match v with
  | VBits _ z => Some (negb (Z.eqb z 0))
  | _ => None
  end.

(* ------------------------------------------------------------------ *)
(** ** Channels *)

Inductive ChannelKind := kSendOnly | kReceiveOnly | kSendReceive.

(** A [Channel]: its name, kind and the types of its data elements. *)
Record Channel := mkChannel {
  ch_name : string;
  ch_kind : ChannelKind;
  ch_types : list Ty;
}.

(** One row of a channel: the values of its data elements. *)
Definition Row := list Value.

(* ------------------------------------------------------------------ *)
(** ** Proc graphs *)

(** The node operations used by the procs of the network. *)
Inductive Op : Type :=
| OParamToken
| OParamState
| OLiteral (v : Value)
| OAdd
| OSub
| OEq
| ONe
| ONot
| OBitSlice (start width : nat)
| OTuple
| OTupleIndex (i : nat)
| OSelect
| OSend (ch : string)       (* operands: token, data... *)
| OSendIf (ch : string)     (* operands: token, predicate, data... *)
| OReceive (ch : string)    (* operands: token *)
| OReceiveIf (ch : string). (* operands: token, predicate *)

(** A node: its operation and the indices of its operand nodes. *)
Record Node := mkNode { op : Op; operands : list nat }.

(** A [Proc]: name, initial state and a node list whose two designated
    outputs are the next token and the next state. *)
Record Proc := mkProc {
  proc_name : string;
  init_value : Value;
  nodes : list Node;
  next_token : nat;
  next_state : nat;
}.

(* ------------------------------------------------------------------ *)
(** ** Pure node semantics *)

(** Evaluation of a pure node from its operand values; [None] on an
    ill-typed node (excluded when the graph is built). *)
Definition eval_pure (o : Op) (state : Value) (args : list Value) : option Value :=
  match o, args with
  | OParamToken, [] => Some VToken
  | OParamState, [] => Some state
  | OLiteral v, [] => Some v
  | OAdd, [VBits w a; VBits w' b] =>
      if Nat.eqb w w' then Some (VBits w (Z.land (a + b) (mask w))) else None
  | OSub, [VBits w a; VBits w' b] =>
      if Nat.eqb w w' then Some (VBits w (Z.land (a - b) (mask w))) else None
  | OEq, [a; b] => Some (VBits 1 (if value_eqb a b then 1 else 0))
  | ONe, [a; b] => Some (VBits 1 (if value_eqb a b then 0 else 1))
  | ONot, [VBits w a] => Some (VBits w (Z.lxor a (mask w)))
  | OBitSlice s wd, [VBits w a] =>
      if Nat.leb (s + wd) w
      then Some (VBits wd (Z.land (Z.shiftr a (Z.of_nat s)) (mask wd)))
      else None
  | OTuple, vs => Some (VTuple vs)
  | OTupleIndex i, [VTuple vs] => vs !! i
  | OSelect, VBits _ p :: cases => cases !! Z.to_nat p
  | _, _ => None
  end.

(* ------------------------------------------------------------------ *)
(** ** Channel queues *)

(** Modelled from the spec: [ChannelQueue] and [FixedRxOnlyChannelQueue]
    (channel_queue.h / channel_queue.cc are absent).  A FIFO of rows, an
    optional capacity, and whether it is an externally seeded read-only
    queue (spec 3, 4.1). *)
Record ChannelQueue := mkQueue {
  q_rows : list Row;
  q_capacity : option nat;
  q_external : bool;
}.

Inductive QueueError := QEmpty | QExhausted | QCapacityExceeded | QReadOnly.

(** Modelled from the spec: [ChannelQueue::Enqueue] appends at the tail;
    a bounded full queue refuses; an external queue is never written. *)
Definition Enqueue (row : Row) (q : ChannelQueue) : QueueError + ChannelQueue :=
  if q_external q then inl QReadOnly
  else match q_capacity q with
       | Some c => if Nat.leb c (length (q_rows q)) then inl QCapacityExceeded
                   else inr (mkQueue (q_rows q ++ [row]) (q_capacity q) false)
       | None => inr (mkQueue (q_rows q ++ [row]) (q_capacity q) false)
       end.

(** Modelled from the spec: [ChannelQueue::Dequeue] removes the head row;
    an empty internal queue is [Empty], an empty external one [Exhausted]. *)
Definition Dequeue (q : ChannelQueue) : QueueError + (Row * ChannelQueue) :=
  match q_rows q with
  | [] => inl (if q_external q then QExhausted else QEmpty)
  | r :: rs => inr (r, mkQueue rs (q_capacity q) (q_external q))
  end.

(** The [QueueManager]: one queue per channel name. *)
Notation Queues := (gmap string ChannelQueue).

(** The rows currently held by the queue of a channel. *)
Definition queue_rows (qs : Queues) (ch : string) : list Row :=
  match qs !! ch with Some q => q_rows q | None => [] end.

(* ------------------------------------------------------------------ *)
(** ** Side-effecting nodes *)

(** The queue traffic caused by one node evaluation. *)
Inductive Event := EvEnq (ch : string) (r : Row) | EvDeq (ch : string) (r : Row) | EvNone.

(** The outcome of attempting one node: evaluated (with its value, the
    queues afterwards and its traffic), blocked on a channel, or not ready. *)
Inductive NodeOutcome :=
| NDone (v : Value) (qs : Queues) (e : Event)
| NBlocked (ch : string)
| NStuck.

(** Modelled from the spec (4.2): a [Send] attempts [Enqueue] and blocks
    while the queue has no capacity; its result is the token. *)
Definition send_row (ch : string) (tok : Value) (data : Row) (qs : Queues) : NodeOutcome :=
  match qs !! ch with
  | None => NStuck
  | Some q =>
      match Enqueue data q with
      | inr q' => NDone tok (<[ch:=q']> qs) (EvEnq ch data)
      | inl QCapacityExceeded => NBlocked ch
      | inl _ => NStuck
      end
  end.

(** Modelled from the spec (4.2): a [Receive] attempts [Dequeue] and blocks
    while no row is available; its result is the tuple (token, fields...). *)
Definition receive_row (ch : string) (tok : Value) (qs : Queues) : NodeOutcome :=
  match qs !! ch with
  | None => NStuck
  | Some q =>
      match Dequeue q with
      | inr (r, q') => NDone (VTuple (tok :: r)) (<[ch:=q']> qs) (EvDeq ch r)
      | inl _ => NBlocked ch
      end
  end.

Definition channel_types (chans : list Channel) (ch : string) : option (list Ty) :=
  ch_types <$> List.find (fun c => String.eqb (ch_name c) ch) chans.

(** The values of the operands, when all of them are evaluated. *)
Fixpoint operand_values (results : list (option Value)) (idxs : list nat)
  : option (list Value) :=
  match idxs with
  | [] => Some []
  | i :: is =>
      match results !! i with
      | Some (Some v) =>
          match operand_values results is with
          | Some vs => Some (v :: vs)
          | None => None
          end
      | _ => None
      end
  end.

(** Modelled from the spec (4.2): one attempt at a ready node.  A [SendIf]
    or [ReceiveIf] whose predicate is false completes without touching the
    queue; a false [ReceiveIf] yields the zero value of the channel's row
    as its placeholder (spec 9). *)
Definition step_node (chans : list Channel) (state : Value) (n : Node)
    (results : list (option Value)) (qs : Queues) : NodeOutcome :=
  match operand_values results (operands n) with
  | None => NStuck
  | Some args =>
      match op n, args with
      | OSend ch, tok :: data => send_row ch tok data qs
      | OSendIf ch, tok :: p :: data =>
          match pred_of p with
          | Some true => send_row ch tok data qs
          | Some false => NDone tok qs EvNone
          | None => NStuck
          end
      | OReceive ch, [tok] => receive_row ch tok qs
      | OReceiveIf ch, [tok; p] =>
          match pred_of p with
          | Some true => receive_row ch tok qs
          | Some false =>
              match channel_types chans ch with
              | Some ts => NDone (VTuple (tok :: map zero_of ts)) qs EvNone
              | None => NStuck
              end
          | None => NStuck
          end
      | o, _ =>
          match eval_pure o state args with
          | Some v => NDone v qs EvNone
          | None => NStuck
          end
      end
  end.

(* ------------------------------------------------------------------ *)
(** ** The per-proc evaluator *)

(** Modelled from the spec (4.2): one scan over the nodes in order,
    attempting every node not yet evaluated; a node evaluated earlier in
    the scan makes its users ready later in the same scan.  Returns the
    node results, the queues, the number of nodes newly evaluated and the
    channels of the nodes found blocked. *)
Fixpoint scan (chans : list Channel) (state : Value) (todo : list (nat * Node))
    (results : list (option Value)) (qs : Queues)
  : list (option Value) * Queues * nat * list string :=
  match todo with
  | [] => (results, qs, 0%nat, [])
  | (i, n) :: rest =>
      match results !! i with
      | Some None =>
          match step_node chans state n results qs with
          | NDone v qs' _ =>
              let '(r, q, c, b) := scan chans state rest (<[i:=Some v]> results) qs' in
              (r, q, S c, b)
          | NBlocked ch =>
              let '(r, q, c, b) := scan chans state rest results qs in
              (r, q, c, ch :: b)
          | NStuck => scan chans state rest results qs
          end
      | _ => scan chans state rest results qs
      end
  end.

Definition indexed (ns : list Node) : list (nat * Node) := zip (seq 0 (length ns)) ns.

(** Modelled from the spec (4.2): scans are repeated until one makes no
    progress (the proc is then complete or locally blocked).  The blocked
    channels are those of the last scan, which changed nothing.  Each
    productive scan evaluates a node, so [S (length (nodes p))] scans
    suffice. *)
Fixpoint run_proc (fuel : nat) (chans : list Channel) (p : Proc) (state : Value)
    (results : list (option Value)) (qs : Queues)
  : list (option Value) * Queues * nat * list string :=
  match fuel with
  | O => (results, qs, 0%nat, [])
  | S f =>
      let '(r, q, c, b) := scan chans state (indexed (nodes p)) results qs in
      if Nat.eqb c 0 then (r, q, 0%nat, b)
      else let '(r', q', c', b') := run_proc f chans p state r q in
           (r', q', (c + c')%nat, b')
  end.

Definition fresh_results (p : Proc) : list (option Value) := replicate (length (nodes p)) None.

(** The next state of a proc whose iteration is complete: both designated
    outputs (next token, next state) are evaluated. *)
Definition completed_state (p : Proc) (results : list (option Value)) : option Value :=
  match results !! next_token p, results !! next_state p with
  | Some (Some _), Some (Some st) => Some st
  | _, _ => None
  end.

(* ------------------------------------------------------------------ *)
(** ** The network *)

Record Network := mkNetwork { net_channels : list Channel; net_procs : list Proc }.

(** The interpreter state: per proc its state value and the results of its
    current iteration, and the queues of the [QueueManager]. *)
Record NetState := mkNetState {
  ns_states : list Value;
  ns_results : list (list (option Value));
  ns_queues : Queues;
}.

(** Modelled from the spec (4.3): one pass of the scheduler.  Every proc not
    yet complete in this tick runs until complete or locally blocked; a proc
    that completes commits its next state and starts its next iteration
    afresh.  Returns the new interpreter state, the procs complete in this
    tick, the number of nodes evaluated and the blocked channels. *)
Fixpoint pass (chans : list Channel) (ps : list (nat * Proc)) (ns : NetState)
    (done : list nat) : NetState * list nat * nat * list string :=
  match ps with
  | [] => (ns, done, 0%nat, [])
  | (i, p) :: rest =>
      if existsb (Nat.eqb i) done then pass chans rest ns done
      else
        match ns_states ns !! i, ns_results ns !! i with
        | Some st, Some res =>
            let '(res', qs', c, b) :=
              run_proc (S (length (nodes p))) chans p st res (ns_queues ns) in
            let '(ns', done') :=
              match completed_state p res' with
              | Some st' =>
                  (mkNetState (<[i:=st']> (ns_states ns))
                              (<[i:=fresh_results p]> (ns_results ns)) qs', i :: done)
              | None =>
                  (mkNetState (ns_states ns) (<[i:=res']> (ns_results ns)) qs', done)
              end in
            let '(ns'', done'', c', b') := pass chans rest ns' done' in
            (ns'', done'', (c + c')%nat, b ++ b')
        | _, _ => pass chans rest ns done
        end
  end.

Inductive Status := StatusOk | DeadlockError (blocked_channels : list string).

Definition total_nodes (net : Network) : nat :=
  foldr (fun p n => (length (nodes p) + n)%nat) 0%nat (net_procs net).

Definition indexed_procs (net : Network) : list (nat * Proc) :=
  zip (seq 0 (length (net_procs net))) (net_procs net).

(** Passes repeat while the last one made progress; [made] records whether
    any node was evaluated during the tick. *)
Fixpoint passes (fuel : nat) (chans : list Channel) (ps : list (nat * Proc))
    (ns : NetState) (done : list nat) (made : bool) : NetState * bool * list string :=
  match fuel with
  | O => (ns, made, [])
  | S f =>
      let '(ns', done', c, b) := pass chans ps ns done in
      if Nat.eqb c 0 then (ns', made, b) else passes f chans ps ns' done' true
  end.

(** Modelled from the spec (4.2, 4.3, 8): [ProcNetworkInterpreter::Tick].
    Passes are repeated while they make progress.  The spec's 4.3 reports a
    deadlock on any pass without progress while a proc is incomplete, but
    its 8 says a self-feedback proc "succeeds on the first tick that needs
    no prior data" and fails only "on the tick requiring the missing data",
    as the repository's tests [DeadlockedProc] and [RunLengthDecodingFilter]
    require.  The model follows 8 and 4.2's "possibly-incomplete
    evaluation": an iteration blocked at the end of a tick is resumed in the
    next tick, and the tick fails with a deadlock, naming the blocked
    channels, only when it evaluated no node at all.  [Tick_strict] below is
    the literal reading of 4.3. *)
Definition Tick (net : Network) (ns : NetState) : Status * NetState :=
  let '(ns', made, b) :=
    passes (S (total_nodes net)) (net_channels net) (indexed_procs net) ns [] false in
  if made then (StatusOk, ns') else (DeadlockError (remove_dups b), ns').

Fixpoint passes_strict (fuel : nat) (chans : list Channel) (ps : list (nat * Proc))
    (ns : NetState) (done : list nat) : Status * NetState :=
  match fuel with
  | O => (DeadlockError [], ns)
  | S f =>
      let '(ns', done', c, b) := pass chans ps ns done in
      if Nat.eqb (length done') (length ps) then (StatusOk, ns')
      else if Nat.eqb c 0 then (DeadlockError (remove_dups b), ns')
      else passes_strict f chans ps ns' done'
  end.

(** Modelled from the spec (4.3, literal reading): node results start
    afresh every tick, passes repeat until every proc is complete, and a
    pass without progress while a proc is incomplete is a deadlock; a failed
    tick commits no proc state. *)
Definition Tick_strict (net : Network) (ns : NetState) : Status * NetState :=
  let ns0 := mkNetState (ns_states ns) (map fresh_results (net_procs net)) (ns_queues ns) in
  match passes_strict (S (total_nodes net)) (net_channels net) (indexed_procs net) ns0 [] with
  | (StatusOk, ns') => (StatusOk, ns')
  | (DeadlockError b, ns') =>
      (DeadlockError b, mkNetState (ns_states ns) (ns_results ns') (ns_queues ns'))
  end.

(* ------------------------------------------------------------------ *)
(** ** Construction and the test harness's queue accesses *)

(** Modelled from the spec (3, 4.1, 6): the queue of one channel.  A
    ReceiveOnly channel gets its externally supplied rows as a read-only
    queue; the spec's 4.1 has construction fail when they are missing (its
    3 instead gives such a channel an empty queue; the tests never omit
    one).  Every other channel gets an empty unbounded internal queue. *)
Definition make_queue (rx_only : list (string * list Row)) (c : Channel)
  : option ChannelQueue :=
  match ch_kind c with
  | kReceiveOnly =>
      match List.find (fun e => String.eqb (fst e) (ch_name c)) rx_only with
      | Some (_, rows) => Some (mkQueue rows None true)
      | None => None
      end
  | _ => Some (mkQueue [] None false)
  end.

Fixpoint make_queues (rx_only : list (string * list Row)) (cs : list Channel)
  : option Queues :=
  match cs with
  | [] => Some ∅
  | c :: cs' =>
      match make_queue rx_only c, make_queues rx_only cs' with
      | Some q, Some qs => Some (<[ch_name c:=q]> qs)
      | _, _ => None
      end
  end.

(** Modelled from the spec (6): [ProcNetworkInterpreter::Create];
    [None] is a construction error. *)
Definition Create (net : Network) (rx_only : list (string * list Row)) : option NetState :=
  match make_queues rx_only (net_channels net) with
  | Some qs =>
      Some (mkNetState (map init_value (net_procs net))
                       (map fresh_results (net_procs net)) qs)
  | None => None
  end.

(** [n] successive [XLS_ASSERT_OK(interpreter->Tick())]. *)
Fixpoint Ticks (n : nat) (net : Network) (ns : NetState) : option NetState :=
  match n with
  | O => Some ns
  | S k =>
      match Tick net ns with
      | (StatusOk, ns') => Ticks k net ns'
      | _ => None
      end
  end.

(** [while (queue.size() < k) XLS_ASSERT_OK(interpreter->Tick());] *)
Fixpoint TickUntilSize (fuel : nat) (net : Network) (ch : string) (k : nat)
    (ns : NetState) : option NetState :=
  if Nat.ltb (length (queue_rows (ns_queues ns) ch)) k then
    match fuel with
    | O => None
    | S f =>
        match Tick net ns with
        | (StatusOk, ns') => TickUntilSize f net ch k ns'
        | _ => None
        end
    end
  else Some ns.

(** [interpreter->queue_manager().GetQueue(ch).Dequeue()]. *)
Definition DequeueFrom (ch : string) (ns : NetState) : option (Row * NetState) :=
  match ns_queues ns !! ch with
  | Some q =>
      match Dequeue q with
      | inr (r, q') => Some (r, mkNetState (ns_states ns) (ns_results ns)
                                          (<[ch:=q']> (ns_queues ns)))
      | inl _ => None
      end
  | None => None
  end.

(** [k] successive dequeues. *)
Fixpoint DequeueN (k : nat) (ch : string) (ns : NetState) : option (list Row * NetState) :=
  match k with
  | O => Some ([], ns)
  | S k' =>
      match DequeueFrom ch ns with
      | Some (r, ns') =>
          match DequeueN k' ch ns' with
          | Some (rs, ns'') => Some (r :: rs, ns'')
          | None => None
          end
      | None => None
      end
  end.

(* ------------------------------------------------------------------ *)
(** ** [ProcBuilder] *)

(** The builder appends nodes; a [BValue] is the index of its node.  The
    token and state parameters are nodes 0 and 1. *)
Definition PB (A : Type) := list Node -> A * list Node.
Definition pb_ret {A} (a : A) : PB A := fun ns => (a, ns).
Definition pb_bind {A B} (m : PB A) (k : A -> PB B) : PB B :=
  fun ns => let '(a, ns') := m ns in k a ns'.
Notation "x <- m ;; k" := (pb_bind m (fun x => k))
  (at level 100, m at next level, right associativity).

Definition add_node (o : Op) (args : list nat) : PB nat :=
  fun ns => (length ns, ns ++ [mkNode o args]).

Definition GetTokenParam : nat := 0%nat.
Definition GetStateParam : nat := 1%nat.

Definition Literal (v : Value) : PB nat := add_node (OLiteral v) [].
Definition Add (a b : nat) : PB nat := add_node OAdd [a; b].
Definition Subtract (a b : nat) : PB nat := add_node OSub [a; b].
Definition Eq (a b : nat) : PB nat := add_node OEq [a; b].
Definition Ne (a b : nat) : PB nat := add_node ONe [a; b].
Definition Not (a : nat) : PB nat := add_node ONot [a].
Definition BitSlice (a start width : nat) : PB nat := add_node (OBitSlice start width) [a].
Definition Tuple (xs : list nat) : PB nat := add_node OTuple xs.
Definition TupleIndex (a i : nat) : PB nat := add_node (OTupleIndex i) [a].
Definition Select (p : nat) (cases : list nat) : PB nat := add_node OSelect (p :: cases).
Definition Send (ch : string) (tok : nat) (data : list nat) : PB nat :=
  add_node (OSend ch) (tok :: data).
Definition SendIf (ch : string) (tok pred : nat) (data : list nat) : PB nat :=
  add_node (OSendIf ch) (tok :: pred :: data).
Definition Receive (ch : string) (tok : nat) : PB nat := add_node (OReceive ch) [tok].
Definition ReceiveIf (ch : string) (tok pred : nat) : PB nat :=
  add_node (OReceiveIf ch) [tok; pred].

(** [ProcBuilder(name, init_value, ...)] followed by [Build(token, state)]. *)
Definition Build (name : string) (init : Value) (body : PB (nat * nat)) : Proc :=
  let '((tok, st), ns) :=
    body [mkNode OParamToken []; mkNode OParamState []] in
  mkProc name init ns tok st.

(* ------------------------------------------------------------------ *)
(** ** The procs of proc_network_interpreter_test.cc *)

Definition bits32 : list Ty := [TBits 32].
Definition bits8 : list Ty := [TBits 8].

(** [CreateIotaProc]: sends its state, then adds [step]. *)
Definition CreateIotaProc (proc_name : string) (starting_value step : Z)
    (channel : string) : Proc :=
  Build proc_name (UBits starting_value 32) (
    send_token <- Send channel GetTokenParam [GetStateParam] ;;
    lit <- Literal (UBits step 32) ;;
    new_value <- Add GetStateParam lit ;;
    pb_ret (send_token, new_value)).

(** [CreateAccumProc]: a running sum of the received values, sent on. *)
Definition CreateAccumProc (proc_name : string) (in_channel out_channel : string) : Proc :=
  Build proc_name (UBits 0 32) (
    token_input <- Receive in_channel GetTokenParam ;;
    recv_token <- TupleIndex token_input 0 ;;
    input <- TupleIndex token_input 1 ;;
    accum <- Add GetStateParam input ;;
    send_token <- Send out_channel recv_token [accum] ;;
    pb_ret (send_token, accum)).

(** [CreatePassThroughProc]: forwards each received value. *)
Definition CreatePassThroughProc (proc_name : string) (in_channel out_channel : string) : Proc :=
  Build proc_name (VTuple []) (
    token_input <- Receive in_channel GetTokenParam ;;
    recv_token <- TupleIndex token_input 0 ;;
    input <- TupleIndex token_input 1 ;;
    send_token <- Send out_channel recv_token [input] ;;
    pb_ret (send_token, GetStateParam)).

(** [CreateRunLengthDecoderProc]: state (last_char, num_remaining); a new
    (length, value) row is received when [num_remaining] is zero. *)
Definition CreateRunLengthDecoderProc (proc_name : string) (in_channel out_channel : string)
  : Proc :=
  Build proc_name (VTuple [UBits 0 8; UBits 0 32]) (
    last_char <- TupleIndex GetStateParam 0 ;;
    num_remaining <- TupleIndex GetStateParam 1 ;;
    zero0 <- Literal (UBits 0 32) ;;
    receive_next <- Eq num_remaining zero0 ;;
    receive_if <- ReceiveIf in_channel GetTokenParam receive_next ;;
    rx_length <- TupleIndex receive_if 1 ;;
    run_length <- Select receive_next [num_remaining; rx_length] ;;
    rx_char <- TupleIndex receive_if 2 ;;
    this_char <- Select receive_next [last_char; rx_char] ;;
    zero1 <- Literal (UBits 0 32) ;;
    run_length_is_nonzero <- Ne run_length zero1 ;;
    rx_token <- TupleIndex receive_if 0 ;;
    send <- SendIf out_channel rx_token run_length_is_nonzero [this_char] ;;
    zero2 <- Literal (UBits 0 32) ;;
    one <- Literal (UBits 1 32) ;;
    decremented <- Subtract run_length one ;;
    remaining <- Select run_length_is_nonzero [zero2; decremented] ;;
    next_state <- Tuple [this_char; remaining] ;;
    pb_ret (send, next_state)).

(** The wrapper proc of [WrappedProc]. *)
Definition WrapperProc : Proc :=
  Build "WrappedProc" (VTuple []) (
    recv_input <- Receive "input" GetTokenParam ;;
    t0 <- TupleIndex recv_input 0 ;;
    d0 <- TupleIndex recv_input 1 ;;
    send_to_accum <- Send "accum_in" t0 [d0] ;;
    recv_from_accum <- Receive "accum_out" send_to_accum ;;
    t1 <- TupleIndex recv_from_accum 0 ;;
    d1 <- TupleIndex recv_from_accum 1 ;;
    send_output <- Send "out" t1 [d1] ;;
    unit <- Tuple [] ;;
    pb_ret (send_output, unit)).

(** The filter proc of [RunLengthDecodingFilter]: forwards even values. *)
Definition FilterProc : Proc :=
  Build "filter" (VTuple []) (
    receive <- Receive "decoded" GetTokenParam ;;
    rx_token <- TupleIndex receive 0 ;;
    rx_value <- TupleIndex receive 1 ;;
    low_bit <- BitSlice rx_value 0 1 ;;
    rx_value_even <- Not low_bit ;;
    send_if <- SendIf "output" rx_token rx_value_even [rx_value] ;;
    pb_ret (send_if, GetStateParam)).

(** The networks (package channels and procs, in creation order). *)
Definition ProcIotaNet : Network :=
  mkNetwork [mkChannel "iota_out" kSendOnly bits32]
            [CreateIotaProc "iota" 5 10 "iota_out"].

Definition IotaFeedingAccumulatorNet : Network :=
  mkNetwork [mkChannel "iota_accum" kSendReceive bits32; mkChannel "out" kSendOnly bits32]
            [CreateIotaProc "iota" 0 1 "iota_accum"; CreateAccumProc "accum" "iota_accum" "out"].

Definition WrappedProcNet : Network :=
  mkNetwork [mkChannel "input" kReceiveOnly bits32; mkChannel "accum_in" kSendReceive bits32;
             mkChannel "accum_out" kSendReceive bits32; mkChannel "out" kSendOnly bits32]
            [WrapperProc; CreateAccumProc "accum" "accum_in" "accum_out"].

Definition WrappedProcInputs : list (string * list Row) :=
  [("input", [[UBits 10 32]; [UBits 20 32]; [UBits 30 32]])].

Definition DeadlockedProcNet : Network :=
  mkNetwork [mkChannel "my_channel" kSendReceive bits32]
            [CreatePassThroughProc "feedback" "my_channel" "my_channel"].

Definition rle_in : Channel := mkChannel "in" kReceiveOnly [TBits 32; TBits 8].

Definition RunLengthDecodingNet : Network :=
  mkNetwork [rle_in; mkChannel "output" kSendOnly bits8]
            [CreateRunLengthDecoderProc "decoder" "in" "output"].

Definition RunLengthDecodingFilterNet : Network :=
  mkNetwork [rle_in; mkChannel "decoded" kSendReceive bits8; mkChannel "output" kSendOnly bits8]
            [CreateRunLengthDecoderProc "decoder" "in" "decoded"; FilterProc].

Definition rle_row (len value : Z) : Row := [UBits len 32; UBits value 8].

Definition RunLengthInputs : list (string * list Row) :=
  [("in", [rle_row 1 42; rle_row 3 123; rle_row 0 55; rle_row 0 66; rle_row 2 20])].


(** Construction followed by [n] successful ticks. *)
Definition CreateAndTick (n : nat) (net : Network) (rx_only : list (string * list Row))
  : option NetState :=
  match Create net rx_only with Some ns => Ticks n net ns | None => None end.

(** Construction followed by ticking until [ch] holds [k] rows. *)
Definition CreateAndTickUntil (fuel : nat) (net : Network) (rx_only : list (string * list Row))
    (ch : string) (k : nat) : option NetState :=
  match Create net rx_only with Some ns => TickUntilSize fuel net ch k ns | None => None end.

(** The rows held by [ch], and the rows of [k] successive dequeues on it. *)
Definition rows_on (ch : string) (o : option NetState) : option (list Row) :=
  option_map (fun ns => queue_rows (ns_queues ns) ch) o.

Definition dequeued (k : nat) (ch : string) (o : option NetState) : option (list Row) :=
  match o with Some ns => option_map fst (DequeueN k ch ns) | None => None end.


(* ------------------------------------------------------------------ *)
(** ** Executions in any order *)

(** Modelled from the spec (4.2, 4.3, 5): the evaluation order among ready
    nodes and among procs is unspecified.  [nstep] lets any proc evaluate
    any of its nodes that is ready, commit a completed iteration, or the
    caller dequeue from a channel's queue; each step records the queue
    traffic it causes. *)
Inductive nstep (net : Network) : NetState -> Event -> NetState -> Prop :=
| nstep_node ns i p st res j n v qs' e :
    net_procs net !! i = Some p ->
    ns_states ns !! i = Some st ->
    ns_results ns !! i = Some res ->
    nodes p !! j = Some n ->
    res !! j = Some None ->
    step_node (net_channels net) st n res (ns_queues ns) = NDone v qs' e ->
    nstep net ns e (mkNetState (ns_states ns) (<[i:=<[j:=Some v]> res]> (ns_results ns)) qs')
| nstep_commit ns i p res st' :
    net_procs net !! i = Some p ->
    ns_results ns !! i = Some res ->
    completed_state p res = Some st' ->
    nstep net ns EvNone
      (mkNetState (<[i:=st']> (ns_states ns)) (<[i:=fresh_results p]> (ns_results ns))
                  (ns_queues ns))
| nstep_dequeue ns ch r ns' :
    DequeueFrom ch ns = Some (r, ns') ->
    nstep net ns (EvDeq ch r) ns'.

Inductive nsteps (net : Network) : NetState -> list Event -> NetState -> Prop :=
| nsteps_refl ns : nsteps net ns [] ns
| nsteps_step ns e ns' tr ns'' :
    nstep net ns e ns' -> nsteps net ns' tr ns'' -> nsteps net ns (e :: tr) ns''.

(** The rows enqueued on, and dequeued from, channel [ch] by one event and
    along a trace. *)
Definition enq_of (ch : string) (e : Event) : list Row :=
  match e with EvEnq c r => if String.eqb c ch then [r] else [] | _ => [] end.

Definition deq_of (ch : string) (e : Event) : list Row :=
  match e with EvDeq c r => if String.eqb c ch then [r] else [] | _ => [] end.

Definition enq_rows (ch : string) (tr : list Event) : list Row := flat_map (enq_of ch) tr.
Definition deq_rows (ch : string) (tr : list Event) : list Row := flat_map (deq_of ch) tr.

(** The queue contents before and after an event, channel by channel. *)
Definition queue_effect (qs qs' : Queues) (e : Event) : Prop :=
  forall ch, deq_of ch e ++ queue_rows qs' ch = queue_rows qs ch ++ enq_of ch e.

(* ------------------------------------------------------------------ *)
(** ** The test file's procs on arbitrary parameters and inputs *)

(** A one-field row of a 32-bit or an 8-bit channel. *)
Definition row32 (x : Z) : Row := [UBits x 32].
Definition row8 (x : Z) : Row := [UBits x 8].

(** The running sums of [xs] from [acc]: the values an accumulator sends. *)
Fixpoint running_sums (acc : Z) (xs : list Z) : list Z :=
  match xs with
  | [] => []
  | x :: xs' => (acc + x) :: running_sums (acc + x) xs'
  end.

(** The [k]-th value of an iota sequence, before truncation to 32 bits. *)
Definition iota_val (start step : Z) (k : nat) : Z := start + Z.of_nat k * step.

(** [ProcIota] and [IotaFeedingAccumulator] with any starting value and
    step. *)
Definition IotaNet (start step : Z) : Network :=
  mkNetwork [mkChannel "iota_out" kSendOnly bits32] [CreateIotaProc "iota" start step "iota_out"].

Definition IotaAccumNet (start step : Z) : Network :=
  mkNetwork [mkChannel "iota_accum" kSendReceive bits32; mkChannel "out" kSendOnly bits32]
            [CreateIotaProc "iota" start step "iota_accum"; CreateAccumProc "accum" "iota_accum" "out"].

(** [CreateAccumProc], [CreatePassThroughProc] and the filter proc of
    [RunLengthDecodingFilter], each alone between an externally seeded
    ReceiveOnly channel and a SendOnly channel. *)
Definition AccumNet : Network :=
  mkNetwork [mkChannel "in" kReceiveOnly bits32; mkChannel "out" kSendOnly bits32]
            [CreateAccumProc "accum" "in" "out"].

Definition PassThroughNet : Network :=
  mkNetwork [mkChannel "in" kReceiveOnly bits32; mkChannel "out" kSendOnly bits32]
            [CreatePassThroughProc "pass" "in" "out"].

Definition FilterNet : Network :=
  mkNetwork [mkChannel "decoded" kReceiveOnly bits8; mkChannel "output" kSendOnly bits8]
            [FilterProc].



(** Run-length input rows as (length, value) pairs, the stream they decode
    to, and the ticks the decoder takes over them: one per output value,
    and one for a row of length zero. *)
Definition rle_rows (rows : list (Z * Z)) : list Row :=
  map (fun lv => rle_row (fst lv) (snd lv)) rows.

Definition rle_decode (rows : list (Z * Z)) : list Row :=
  flat_map (fun lv => repeat (row8 (snd lv)) (Z.to_nat (fst lv))) rows.

Definition rle_ticks (rows : list (Z * Z)) : nat :=
  foldr (fun lv n => (Nat.max 1 (Z.to_nat (fst lv)) + n)%nat) 0%nat rows.

(** The interpreter states these networks go through between ticks: the
    proc states, no node result carried over, and the queue contents. *)
Definition iota_ns (start step a : Z) (rows : list Row) : NetState :=
  mkNetState [VBits 32 a] [fresh_results (CreateIotaProc "iota" start step "iota_out")]
    (<["iota_out":=mkQueue rows None false]> ∅).

Definition ia_ns (start step a s : Z) (outs : list Row) : NetState :=
  mkNetState [VBits 32 a; VBits 32 s] (map fresh_results (net_procs (IotaAccumNet start step)))
    (<["iota_accum":=mkQueue [] None false]> (<["out":=mkQueue outs None false]> ∅)).

Definition accum_ns (a : Z) (ins outs : list Row) : NetState :=
  mkNetState [VBits 32 a] [fresh_results (CreateAccumProc "accum" "in" "out")]
    (<["in":=mkQueue ins None true]> (<["out":=mkQueue outs None false]> ∅)).

Definition pass_ns (ins outs : list Row) : NetState :=
  mkNetState [VTuple []] [fresh_results (CreatePassThroughProc "pass" "in" "out")]
    (<["in":=mkQueue ins None true]> (<["out":=mkQueue outs None false]> ∅)).

Definition filt_ns (ins outs : list Row) : NetState :=
  mkNetState [VTuple []] [fresh_results FilterProc]
    (<["decoded":=mkQueue ins None true]> (<["output":=mkQueue outs None false]> ∅)).

Definition dec_ns (c r : Z) (ins outs : list Row) : NetState :=
  mkNetState [VTuple [VBits 8 c; VBits 32 r]]
    [fresh_results (CreateRunLengthDecoderProc "decoder" "in" "output")]
    (<["in":=mkQueue ins None true]> (<["output":=mkQueue outs None false]> ∅)).

Definition wrapped_ns (s : Z) (ins outs : list Row) : NetState :=
  mkNetState [VTuple []; VBits 32 s] (map fresh_results (net_procs WrappedProcNet))
    (<["input":=mkQueue ins None true]> (<["accum_in":=mkQueue [] None false]>
      (<["accum_out":=mkQueue [] None false]> (<["out":=mkQueue outs None false]> ∅)))).


(* ================================================================== *)
(** * Properties *)

(** C1: [ProcIota].  The iota proc (start 5, step 10) ticked four times
    leaves exactly the rows 5, 15, 25, 35 on [iota_out], and four dequeues
    return them in that order. *)
Theorem ProcIota_four_ticks :
  let out := [[UBits 5 32]; [UBits 15 32]; [UBits 25 32]; [UBits 35 32]] in
  rows_on "iota_out" (CreateAndTick 4 ProcIotaNet []) = Some out /\
  dequeued 4 "iota_out" (CreateAndTick 4 ProcIotaNet []) = Some out.
Proof. vm_compute. split; reflexivity. Qed.

(** C2: [IotaFeedingAccumulator].  A counter (start 0, step 1) feeding an
    accumulator: after four ticks the accumulator's output channel holds
    exactly 0, 1, 3, 6, dequeued in that order. *)
Theorem IotaFeedingAccumulator_four_ticks :
  let out := [[UBits 0 32]; [UBits 1 32]; [UBits 3 32]; [UBits 6 32]] in
  rows_on "out" (CreateAndTick 4 IotaFeedingAccumulatorNet []) = Some out /\
  dequeued 4 "out" (CreateAndTick 4 IotaFeedingAccumulatorNet []) = Some out.
Proof. vm_compute. split; reflexivity. Qed.

(** C3: [DeadlockedProc].  A single pass-through proc whose Receive and
    Send use the same channel: the first tick succeeds, the second fails
    with a deadlock whose blocked channels are exactly [my_channel]. *)
Theorem DeadlockedProc_second_tick :
  match Create DeadlockedProcNet [] with
  | Some ns0 =>
      let '(s1, ns1) := Tick DeadlockedProcNet ns0 in
      s1 = StatusOk /\ fst (Tick DeadlockedProcNet ns1) = DeadlockError ["my_channel"]
  | None => False
  end.
Proof. vm_compute. split; reflexivity. Qed.

(** Under the literal reading of the spec's 4.3 ([Tick_strict]) the same
    network already deadlocks on its first tick. *)
Lemma DeadlockedProc_strict_first_tick :
  option_map (fun ns => fst (Tick_strict DeadlockedProcNet ns)) (Create DeadlockedProcNet [])
  = Some (DeadlockError ["my_channel"]).
Proof. vm_compute. reflexivity. Qed.

(** C5: [RunLengthDecoding].  Ticking the decoder on the rows (1,42),
    (3,123), (0,55), (0,66), (2,20) until six output rows exist (every tick
    succeeding) yields exactly 42, 123, 123, 123, 20, 20, in order. *)
Theorem RunLengthDecoding_output :
  let out := [[UBits 42 8]; [UBits 123 8]; [UBits 123 8]; [UBits 123 8];
              [UBits 20 8]; [UBits 20 8]] in
  rows_on "output" (CreateAndTickUntil 20 RunLengthDecodingNet RunLengthInputs "output" 6)
    = Some out /\
  dequeued 6 "output" (CreateAndTickUntil 20 RunLengthDecodingNet RunLengthInputs "output" 6)
    = Some out.
Proof. vm_compute. split; reflexivity. Qed.

(** C6: [RunLengthDecodingFilter].  The decoder chained through [decoded]
    into the even-value filter: ticking until three output rows exist
    (every tick succeeding) yields exactly 42, 20, 20, in order. *)
Theorem RunLengthDecodingFilter_output :
  let out := [[UBits 42 8]; [UBits 20 8]; [UBits 20 8]] in
  rows_on "output"
    (CreateAndTickUntil 20 RunLengthDecodingFilterNet RunLengthInputs "output" 3) = Some out /\
  dequeued 3 "output"
    (CreateAndTickUntil 20 RunLengthDecodingFilterNet RunLengthInputs "output" 3) = Some out.
Proof. vm_compute. split; reflexivity. Qed.

(** Under [Tick_strict] the filter network deadlocks on its fifth tick, the
    first one in which the decoder sends nothing. *)
Lemma RunLengthDecodingFilter_strict_fifth_tick :
  let fix go (n : nat) (ns : NetState) : Status :=
    match n with
    | O => StatusOk
    | S k => let '(s, ns') := Tick_strict RunLengthDecodingFilterNet ns in
             match s with StatusOk => go k ns' | _ => s end
    end in
  option_map (go 4%nat) (Create RunLengthDecodingFilterNet RunLengthInputs)
    = Some StatusOk /\
  option_map (go 5%nat) (Create RunLengthDecodingFilterNet RunLengthInputs)
    = Some (DeadlockError ["decoded"]).
Proof. vm_compute. split; reflexivity. Qed.

(** C7: [WrappedProc].  The wrapper's Receive on [accum_out] blocks in the
    first pass of each tick and completes in a later pass of the same tick,
    after the accumulator has run: each of the three ticks succeeds with
    every proc's iteration complete (no node results carried over), and
    [out] holds 10, then 10, 30, then 10, 30, 60. *)
Theorem WrappedProc_three_ticks :
  match Create WrappedProcNet WrappedProcInputs with
  | Some ns0 =>
      let '(s1, ns1) := Tick WrappedProcNet ns0 in
      let '(s2, ns2) := Tick WrappedProcNet ns1 in
      let '(s3, ns3) := Tick WrappedProcNet ns2 in
      let fresh := map fresh_results (net_procs WrappedProcNet) in
      s1 = StatusOk /\ ns_results ns1 = fresh /\
      queue_rows (ns_queues ns1) "out" = [[UBits 10 32]] /\
      s2 = StatusOk /\ ns_results ns2 = fresh /\
      queue_rows (ns_queues ns2) "out" = [[UBits 10 32]; [UBits 30 32]] /\
      s3 = StatusOk /\ ns_results ns3 = fresh /\
      queue_rows (ns_queues ns3) "out" = [[UBits 10 32]; [UBits 30 32]; [UBits 60 32]]
  | None => False
  end.
Proof. vm_compute. repeat split. Qed.

(** C4: predicate gating.  A [SendIf] or [ReceiveIf] whose operands are
    evaluated and whose predicate is false completes at once, whatever the
    queues hold (full, empty or anything else): the queues are returned
    unchanged, no traffic is recorded, the outcome is never [NBlocked] (so
    [scan] never lists its channel as blocked), and the token operand is
    forwarded unchanged ([ReceiveIf] pairs it with a zero placeholder). *)
Theorem false_predicate_gating (chans : list Channel) (state : Value) (n : Node)
    (results : list (option Value)) (qs : Queues) (ch : string) (tok p : Value)
    (data : Row) (ts : list Ty) (Hp : pred_of p = Some false) :
  (op n = OSendIf ch ->
   operand_values results (operands n) = Some (tok :: p :: data) ->
   step_node chans state n results qs = NDone tok qs EvNone) /\
  (op n = OReceiveIf ch ->
   operand_values results (operands n) = Some [tok; p] ->
   channel_types chans ch = Some ts ->
   step_node chans state n results qs = NDone (VTuple (tok :: map zero_of ts)) qs EvNone).
Proof.
  split; intros Hop Hargs; unfold step_node; rewrite Hargs, Hop, Hp.
  - reflexivity.
  - intros Hts. rewrite Hts. reflexivity.
Qed.

(** The decoder's [SendIf] with a false predicate, on a full bounded queue. *)
Lemma false_predicate_gating_witness :
  let qs : Queues := {[ "output" := mkQueue [[UBits 1 8]] (Some 1%nat) false ]} in
  let n := mkNode (OSendIf "output") [0; 1; 2]%nat in
  let res := [Some VToken; Some (VBits 1 0); Some (UBits 7 8)] in
  pred_of (VBits 1 0) = Some false /\
  step_node [] (VTuple []) n res qs = NDone VToken qs EvNone.
Proof.
  intros qs n res. split; [reflexivity |].
  apply (proj1 (false_predicate_gating [] (VTuple []) n res qs "output" VToken (VBits 1 0)
                  [UBits 7 8] [] eq_refl)); reflexivity.
Defined.

(* ------------------------------------------------------------------ *)
(** ** The FIFO law *)

Section Fifo.
Local Open Scope nat_scope.

Lemma queue_rows_insert (qs : Queues) (ch ch' : string) (q : ChannelQueue) :
  queue_rows (<[ch:=q]> qs) ch' = if String.eqb ch ch' then q_rows q else queue_rows qs ch'.
Proof.
  unfold queue_rows. destruct (String.eqb_spec ch ch') as [<-|Hne].
  - by rewrite lookup_insert_eq.
  - by rewrite lookup_insert_ne.
Qed.

Lemma Enqueue_rows (r : Row) (q q' : ChannelQueue) :
  Enqueue r q = inr q' -> q_rows q' = q_rows q ++ [r].
Proof.
  unfold Enqueue. destruct (q_external q); [discriminate |].
  destruct (q_capacity q) as [c|]; [destruct (Nat.leb c (length (q_rows q))); [discriminate |] |];
    intros [= <-]; reflexivity.
Qed.

Lemma Dequeue_rows (q q' : ChannelQueue) (r : Row) :
  Dequeue q = inr (r, q') -> q_rows q = r :: q_rows q'.
Proof.
  unfold Dequeue. destruct (q_rows q) as [|r0 rs]; [discriminate |].
  intros [= <- <-]. reflexivity.
Qed.

Lemma queue_effect_none (qs : Queues) : queue_effect qs qs EvNone.
Proof. intros ch. simpl. by rewrite app_nil_r. Qed.

Lemma queue_effect_enq (qs : Queues) (ch : string) (q q' : ChannelQueue) (r : Row) :
  qs !! ch = Some q -> q_rows q' = q_rows q ++ [r] ->
  queue_effect qs (<[ch:=q']> qs) (EvEnq ch r).
Proof.
  intros Hq Hr ch'. simpl. rewrite queue_rows_insert.
  destruct (String.eqb_spec ch ch') as [<-|Hne].
  - unfold queue_rows. by rewrite Hq, Hr.
  - by rewrite app_nil_r.
Qed.

Lemma queue_effect_deq (qs : Queues) (ch : string) (q q' : ChannelQueue) (r : Row) :
  qs !! ch = Some q -> q_rows q = r :: q_rows q' ->
  queue_effect qs (<[ch:=q']> qs) (EvDeq ch r).
Proof.
  intros Hq Hr ch'. simpl. rewrite queue_rows_insert.
  destruct (String.eqb_spec ch ch') as [<-|Hne].
  - unfold queue_rows. rewrite Hq, Hr. by rewrite app_nil_r.
  - by rewrite app_nil_r.
Qed.

Lemma send_row_effect (ch : string) (tok v : Value) (data : Row) (qs qs' : Queues) (e : Event) :
  send_row ch tok data qs = NDone v qs' e -> queue_effect qs qs' e.
Proof.
  unfold send_row. destruct (qs !! ch) as [q|] eqn:Hq; [| discriminate].
  destruct (Enqueue data q) as [err|q'] eqn:He.
  - destruct err; discriminate.
  - intros [= _ <- <-]. eapply queue_effect_enq; [exact Hq | by apply Enqueue_rows].
Qed.

Lemma receive_row_effect (ch : string) (tok v : Value) (qs qs' : Queues) (e : Event) :
  receive_row ch tok qs = NDone v qs' e -> queue_effect qs qs' e.
Proof.
  unfold receive_row. destruct (qs !! ch) as [q|] eqn:Hq; [| discriminate].
  destruct (Dequeue q) as [err|[r q']] eqn:Hd; [discriminate |].
  intros [= _ <- <-]. eapply queue_effect_deq; [exact Hq | by apply Dequeue_rows].
Qed.

(** Every node evaluation changes the queues exactly as its event says. *)
Lemma step_node_effect (chans : list Channel) (st : Value) (n : Node)
    (res : list (option Value)) (qs qs' : Queues) (v : Value) (e : Event) :
  step_node chans st n res qs = NDone v qs' e -> queue_effect qs qs' e.
Proof.
  unfold step_node. destruct (operand_values res (operands n)) as [args|]; [| discriminate].
  intros H.
  repeat match type of H with
  | send_row _ _ _ _ = _ => exact (send_row_effect _ _ _ _ _ _ _ H)
  | receive_row _ _ _ = _ => exact (receive_row_effect _ _ _ _ _ _ H)
  | NDone _ _ _ = NDone _ _ _ => injection H as _ <- <-; apply queue_effect_none
  | context [match ?x with _ => _ end] => destruct x; try discriminate
  end.
Qed.

Lemma nstep_effect (net : Network) (ns ns' : NetState) (e : Event) :
  nstep net ns e ns' -> queue_effect (ns_queues ns) (ns_queues ns') e.
Proof.
  destruct 1 as [ns i p st res j n v qs' e ? ? ? ? ? Hstep | ns i p res st' ? ? ? | ns ch r ns' Hd].
  - exact (step_node_effect _ _ _ _ _ _ _ _ Hstep).
  - apply queue_effect_none.
  - revert Hd. unfold DequeueFrom.
    destruct (ns_queues ns !! ch) as [q|] eqn:Hq; [| discriminate].
    destruct (Dequeue q) as [err|[r0 q']] eqn:Hdq; [discriminate |].
    intros [= <- <-]. simpl. eapply queue_effect_deq; [exact Hq | by apply Dequeue_rows].
Qed.

End Fifo.

(* ------------------------------------------------------------------ *)
(** ** The scheduler's order is one of the executions *)

Section Schedule.
Local Open Scope nat_scope.
Variable net : Network.

Lemma nsteps_trans (ns1 ns2 ns3 : NetState) (tr1 tr2 : list Event) :
  nsteps net ns1 tr1 ns2 -> nsteps net ns2 tr2 ns3 -> nsteps net ns1 (tr1 ++ tr2) ns3.
Proof.
  induction 1 as [ns|ns e ns' tr ns'' Hs _ IH]; simpl; intros H23; [done |].
  econstructor; [exact Hs | exact (IH H23)].
Qed.

Lemma In_zip_seq {A} (l : list A) : forall k j x,
  In (j, x) (zip (seq k (length l)) l) -> k <= j /\ l !! (j - k) = Some x.
Proof.
  induction l as [|a l IH]; intros k j x Hin; simpl in Hin; [done |].
  destruct Hin as [[= <- <-] | Hin].
  - split; [lia |]. by rewrite Nat.sub_diag.
  - destruct (IH (S k) j x Hin) as [Hle Hl]. split; [lia |].
    replace (j - k) with (S (j - S k)) by lia. exact Hl.
Qed.

Lemma In_indexed (p : Proc) (j : nat) (n : Node) :
  In (j, n) (indexed (nodes p)) -> nodes p !! j = Some n.
Proof.
  intros H. destruct (In_zip_seq _ 0 j n H) as [_ Hl]. by rewrite Nat.sub_0_r in Hl.
Qed.

Lemma In_indexed_procs (i : nat) (p : Proc) :
  In (i, p) (indexed_procs net) -> net_procs net !! i = Some p.
Proof.
  intros H. destruct (In_zip_seq _ 0 i p H) as [_ Hl]. by rewrite Nat.sub_0_r in Hl.
Qed.

Lemma scan_nsteps (i : nat) (p : Proc) (st : Value) :
  forall todo res ns r q c b,
  net_procs net !! i = Some p ->
  ns_states ns !! i = Some st ->
  ns_results ns !! i = Some res ->
  (forall j n, In (j, n) todo -> nodes p !! j = Some n) ->
  scan (net_channels net) st todo res (ns_queues ns) = (r, q, c, b) ->
  exists tr, nsteps net ns tr (mkNetState (ns_states ns) (<[i:=r]> (ns_results ns)) q).
Proof.
  induction todo as [|[j n] todo IH]; intros res ns r q c b Hp Hst Hres Hin Hscan;
    simpl in Hscan.
  - injection Hscan as <- <- _ _. exists [].
    rewrite list_insert_id by exact Hres. destruct ns. constructor.
  - assert (Hin' : forall j' n', In (j', n') todo -> nodes p !! j' = Some n')
      by (intros; apply Hin; by right).
    destruct (res !! j) as [[v0|]|] eqn:Hj; [by eapply IH | | by eapply IH].
    destruct (step_node (net_channels net) st n res (ns_queues ns)) as [v qs' e|ch|] eqn:Hstep.
    + destruct (scan (net_channels net) st todo (<[j:=Some v]> res) qs')
        as [[[r' q'] c'] b'] eqn:Hrest.
      injection Hscan as <- <- _ _.
      set (ns1 := mkNetState (ns_states ns) (<[i:=<[j:=Some v]> res]> (ns_results ns)) qs').
      assert (Hstep1 : nstep net ns e ns1).
      { eapply nstep_node; eauto. apply Hin. by left. }
      assert (Hres1 : ns_results ns1 !! i = Some (<[j:=Some v]> res)).
      { simpl. apply list_lookup_insert_eq. by eapply lookup_lt_Some. }
      destruct (IH _ ns1 r' q' c' b' Hp Hst Hres1 Hin' Hrest) as [tr Htr].
      exists (e :: tr). econstructor; [exact Hstep1 |].
      simpl in Htr. by rewrite list_insert_insert_eq in Htr.
    + destruct (scan (net_channels net) st todo res (ns_queues ns))
        as [[[r' q'] c'] b'] eqn:Hrest.
      injection Hscan as <- <- _ _. by eapply IH.
    + by eapply IH.
Qed.

Lemma run_proc_nsteps (i : nat) (p : Proc) (st : Value) :
  forall fuel res ns r q c b,
  net_procs net !! i = Some p ->
  ns_states ns !! i = Some st ->
  ns_results ns !! i = Some res ->
  run_proc fuel (net_channels net) p st res (ns_queues ns) = (r, q, c, b) ->
  exists tr, nsteps net ns tr (mkNetState (ns_states ns) (<[i:=r]> (ns_results ns)) q).
Proof.
  induction fuel as [|fuel IH]; intros res ns r q c b Hp Hst Hres Hrun; simpl in Hrun.
  - injection Hrun as <- <- _ _. exists [].
    rewrite list_insert_id by exact Hres. destruct ns. constructor.
  - destruct (scan (net_channels net) st (indexed (nodes p)) res (ns_queues ns))
      as [[[r1 q1] c1] b1] eqn:Hscan.
    destruct (scan_nsteps i p st _ _ _ _ _ _ _ Hp Hst Hres (In_indexed p) Hscan) as [tr1 H1].
    destruct (Nat.eqb c1 0).
    + injection Hrun as <- <- _ _. by exists tr1.
    + set (ns1 := mkNetState (ns_states ns) (<[i:=r1]> (ns_results ns)) q1) in H1.
      destruct (run_proc fuel (net_channels net) p st r1 q1) as [[[r2 q2] c2] b2] eqn:Hrest.
      injection Hrun as <- <- _ _.
      assert (Hres1 : ns_results ns1 !! i = Some r1).
      { simpl. apply list_lookup_insert_eq. by eapply lookup_lt_Some. }
      destruct (IH r1 ns1 r2 q2 c2 b2 Hp Hst Hres1 Hrest) as [tr2 H2].
      exists (tr1 ++ tr2). eapply nsteps_trans; [exact H1 |].
      simpl in H2. by rewrite list_insert_insert_eq in H2.
Qed.

Lemma pass_nsteps : forall ps ns done ns' done' c b,
  (forall i p, In (i, p) ps -> net_procs net !! i = Some p) ->
  pass (net_channels net) ps ns done = (ns', done', c, b) ->
  exists tr, nsteps net ns tr ns'.
Proof.
  induction ps as [|[i p] ps IH]; intros ns done ns' done' c b Hps Hpass; cbn [pass] in Hpass.
  - injection Hpass as <- _ _ _. exists []. constructor.
  - assert (Hps' : forall i' p', In (i', p') ps -> net_procs net !! i' = Some p')
      by (intros; apply Hps; by right).
    assert (Hp : net_procs net !! i = Some p) by (apply Hps; by left).
    destruct (existsb (Nat.eqb i) done); [by eapply IH |].
    destruct (ns_states ns !! i) as [st|] eqn:Hst; [| by eapply IH].
    destruct (ns_results ns !! i) as [res|] eqn:Hres; [| by eapply IH].
    destruct (run_proc (S (length (nodes p))) (net_channels net) p st res (ns_queues ns))
      as [[[res' qs'] c1] b1] eqn:Hrun.
    destruct (run_proc_nsteps i p st _ _ _ _ _ _ _ Hp Hst Hres Hrun) as [tr1 H1].
    set (ns1 := mkNetState (ns_states ns) (<[i:=res']> (ns_results ns)) qs') in *.
    assert (Hres1 : ns_results ns1 !! i = Some res').
    { simpl. apply list_lookup_insert_eq. by eapply lookup_lt_Some. }
    destruct (completed_state p res') as [st'|] eqn:Hc; cbv beta iota in Hpass.
    + set (ns2 := mkNetState (<[i:=st']> (ns_states ns))
                             (<[i:=fresh_results p]> (ns_results ns)) qs') in *.
      destruct (pass (net_channels net) ps ns2 (i :: done)) as [[[ns3 d3] c3] b3] eqn:Hrest.
      injection Hpass as <- _ _ _.
      destruct (IH _ _ _ _ _ _ Hps' Hrest) as [tr3 H3].
      assert (Hcommit : nstep net ns1 EvNone ns2).
      { unfold ns2. rewrite <- (list_insert_insert_eq (ns_results ns) i (fresh_results p) res').
        exact (nstep_commit net ns1 i p res' st' Hp Hres1 Hc). }
      exists (tr1 ++ EvNone :: tr3). eapply nsteps_trans; [exact H1 |].
      econstructor; [exact Hcommit | exact H3].
    + destruct (pass (net_channels net) ps ns1 done) as [[[ns3 d3] c3] b3] eqn:Hrest.
      injection Hpass as <- _ _ _.
      destruct (IH _ _ _ _ _ _ Hps' Hrest) as [tr3 H3].
      exists (tr1 ++ tr3). eapply nsteps_trans; [exact H1 | exact H3].
Qed.

Lemma passes_nsteps : forall fuel ns done made ns' made' b,
  passes fuel (net_channels net) (indexed_procs net) ns done made = (ns', made', b) ->
  exists tr, nsteps net ns tr ns'.
Proof.
  induction fuel as [|fuel IH]; intros ns done made ns' made' b Hp; simpl in Hp.
  - injection Hp as <- _ _. exists []. constructor.
  - destruct (pass (net_channels net) (indexed_procs net) ns done)
      as [[[ns1 d1] c1] b1] eqn:Hpass.
    destruct (pass_nsteps _ _ _ _ _ _ _ In_indexed_procs Hpass) as [tr1 H1].
    destruct (Nat.eqb c1 0).
    + injection Hp as <- _ _. by exists tr1.
    + destruct (IH _ _ _ _ _ _ Hp) as [tr2 H2].
      exists (tr1 ++ tr2). by eapply nsteps_trans.
Qed.

(** Every tick of the scheduler is an execution in the sense of [nsteps]. *)
Lemma Tick_nsteps (ns ns' : NetState) (s : Status) :
  Tick net ns = (s, ns') -> exists tr, nsteps net ns tr ns'.
Proof.
  unfold Tick.
  destruct (passes (S (total_nodes net)) (net_channels net) (indexed_procs net) ns [] false)
    as [[ns1 made] b] eqn:Hp.
  destruct made; intros [= _ <-]; by eapply passes_nsteps.
Qed.

End Schedule.

(** C8: the FIFO law.  Along any execution, in any order of procs and ready
    nodes, and with the caller's own dequeues, the rows dequeued from the
    queue of a channel followed by the rows still in it are the rows it
    held at the start followed by the rows enqueued on it: the k-th
    [Dequeue()] returns the k-th row enqueued (after the seeded ones, for
    an external queue), and once drained the two sequences are equal.
    [Tick_nsteps] shows that the scheduler's own order is such an
    execution. *)
Theorem fifo_law (net : Network) (ns ns' : NetState) (tr : list Event) (ch : string)
    (Hexec : nsteps net ns tr ns') :
  deq_rows ch tr ++ queue_rows (ns_queues ns') ch = queue_rows (ns_queues ns) ch ++ enq_rows ch tr.
Proof.
  induction Hexec as [ns|ns e ns1 tr ns2 Hstep _ IH]; simpl.
  - by rewrite app_nil_r.
  - rewrite <- app_assoc, IH, app_assoc, (nstep_effect net ns ns1 e Hstep ch), app_assoc.
    reflexivity.
Qed.

(** The first tick of [IotaFeedingAccumulator], as an execution. *)
Lemma fifo_law_witness :
  match Create IotaFeedingAccumulatorNet [] with
  | Some ns0 =>
      let ns1 := snd (Tick IotaFeedingAccumulatorNet ns0) in
      exists tr, nsteps IotaFeedingAccumulatorNet ns0 tr ns1 /\
        deq_rows "iota_accum" tr ++ queue_rows (ns_queues ns1) "iota_accum"
        = queue_rows (ns_queues ns0) "iota_accum" ++ enq_rows "iota_accum" tr
  | None => False
  end.
Proof.
  destruct (Create IotaFeedingAccumulatorNet []) as [ns0|] eqn:E;
    [| vm_compute in E; discriminate].
  cbv zeta.
  destruct (Tick_nsteps IotaFeedingAccumulatorNet ns0
              (snd (Tick IotaFeedingAccumulatorNet ns0))
              (fst (Tick IotaFeedingAccumulatorNet ns0))) as [tr Htr];
    [ apply surjective_pairing |].
  exists tr. split; [exact Htr | exact (fifo_law _ _ _ tr "iota_accum" Htr)].
Defined.

(* ------------------------------------------------------------------ *)
(** ** Construction *)

Lemma find_rx_only_none (rx_only : list (string * list Row)) (name : string) :
  (forall rows, ~ In (name, rows) rx_only) ->
  List.find (fun e => String.eqb (fst e) name) rx_only = None.
Proof.
  induction rx_only as [|[n rows] rx IH]; intros Hnot; simpl; [done |].
  destruct (String.eqb_spec n name) as [->|_].
  - exfalso. apply (Hnot rows). by left.
  - apply IH. intros rows' Hin. apply (Hnot rows'). by right.
Qed.

Lemma make_queues_missing (rx_only : list (string * list Row)) (c : Channel) :
  make_queue rx_only c = None ->
  forall cs, In c cs -> make_queues rx_only cs = None.
Proof.
  intros Hc. induction cs as [|c' cs IH]; intros Hin; [done |]. simpl.
  destruct Hin as [<-|Hin].
  - by rewrite Hc.
  - rewrite (IH Hin). by destruct (make_queue rx_only c').
Qed.

(** C9: construction of the interpreter fails (before any tick can run)
    when a ReceiveOnly channel of the network has no externally supplied
    queue. *)
Theorem Create_missing_rx_only_queue (net : Network) (rx_only : list (string * list Row))
    (c : Channel) (Hin : In c (net_channels net)) (Hkind : ch_kind c = kReceiveOnly)
    (Hmissing : forall rows, ~ In (ch_name c, rows) rx_only) :
  Create net rx_only = None.
Proof.
  unfold Create.
  assert (Hc : make_queue rx_only c = None).
  { unfold make_queue. rewrite Hkind, (find_rx_only_none _ _ Hmissing). reflexivity. }
  by rewrite (make_queues_missing rx_only c Hc _ Hin).
Qed.

(** [WrappedProc] constructed without the queue of its [input] channel. *)
Lemma Create_missing_rx_only_queue_witness :
  In (mkChannel "input" kReceiveOnly bits32) (net_channels WrappedProcNet) /\
  Create WrappedProcNet [] = None.
Proof.
  split; [simpl; by left |].
  apply (Create_missing_rx_only_queue WrappedProcNet [] (mkChannel "input" kReceiveOnly bits32)).
  - simpl. by left.
  - reflexivity.
  - intros rows [].
Defined.

(* ------------------------------------------------------------------ *)
(** ** The test file's procs, for all parameters and inputs *)

(** Truncation to [w] bits is reduction modulo [2^w]. *)
Lemma land_mask (w : nat) (x : Z) : Z.land x (mask w) = x mod 2 ^ Z.of_nat w.
Proof.
  unfold mask. rewrite <- Z.land_ones by lia. f_equal. rewrite Z.ones_equiv. lia.
Qed.

Lemma land_add (w : nat) (a b : Z) :
  Z.land (Z.land a (mask w) + Z.land b (mask w)) (mask w) = Z.land (a + b) (mask w).
Proof. rewrite !land_mask. by rewrite <- Z.add_mod by (apply Z.pow_nonzero; lia). Qed.

Lemma land_small (w : nat) (x : Z) : 0 <= x < 2 ^ Z.of_nat w -> Z.land x (mask w) = x.
Proof. intros H. rewrite land_mask. by apply Z.mod_small. Qed.

Lemma land_small32 (x : Z) : 0 <= x < 2 ^ 32 -> Z.land x (mask 32) = x.
Proof. exact (land_small 32 x). Qed.

Lemma even_land_mask8 (x : Z) : Z.even (Z.land x (mask 8)) = Z.even x.
Proof.
  rewrite <- !Z.negb_odd, <- !Z.bit0_odd, Z.land_spec. change (Z.testbit (mask 8) 0) with true.
  by rewrite andb_true_r.
Qed.

Lemma iota_val_S (start step : Z) (k : nat) :
  iota_val start step k + step = iota_val start step (S k).
Proof. unfold iota_val. rewrite Nat2Z.inj_succ. ring. Qed.

Lemma Ticks_add (m n : nat) (net : Network) (ns : NetState) :
  Ticks (m + n) net ns = match Ticks m net ns with Some ns' => Ticks n net ns' | None => None end.
Proof.
  revert ns. induction m as [|m IH]; intros ns; [reflexivity |]. simpl.
  destruct (Tick net ns) as [[|b] ns']; [apply IH | reflexivity].
Qed.

Lemma Ticks_step (n : nat) (net : Network) (ns ns' : NetState) :
  Tick net ns = (StatusOk, ns') -> Ticks (S n) net ns = Ticks n net ns'.
Proof. intros H. simpl. by rewrite H. Qed.

(** One tick of each network, on symbolic proc states and queue contents.
    Each iteration completes within the tick, so no node result is
    carried over. *)
Lemma iota_tick (start step a : Z) (rows : list Row) :
  Tick (IotaNet start step) (iota_ns start step a rows) =
  (StatusOk, iota_ns start step (Z.land (a + Z.land step (mask 32)) (mask 32))
               (rows ++ [[VBits 32 a]])).
Proof. reflexivity. Qed.

Lemma ia_tick (start step a s : Z) (outs : list Row) :
  Tick (IotaAccumNet start step) (ia_ns start step a s outs) =
  (StatusOk, ia_ns start step (Z.land (a + Z.land step (mask 32)) (mask 32))
               (Z.land (s + a) (mask 32)) (outs ++ [[VBits 32 (Z.land (s + a) (mask 32))]])).
Proof. reflexivity. Qed.

Lemma accum_tick (a x : Z) (ins outs : list Row) :
  Tick AccumNet (accum_ns a ([VBits 32 x] :: ins) outs) =
  (StatusOk, accum_ns (Z.land (a + x) (mask 32)) ins
               (outs ++ [[VBits 32 (Z.land (a + x) (mask 32))]])).
Proof. reflexivity. Qed.

Lemma pass_tick (v : Value) (ins outs : list Row) :
  Tick PassThroughNet (pass_ns ([v] :: ins) outs) = (StatusOk, pass_ns ins (outs ++ [[v]])).
Proof. reflexivity. Qed.

Lemma filt_tick (x : Z) (ins outs : list Row) :
  0 <= x ->
  Tick FilterNet (filt_ns ([VBits 8 x] :: ins) outs) =
  (StatusOk, filt_ns ins (if Z.even x then outs ++ [[VBits 8 x]] else outs)).
Proof. intros Hx. destruct x as [|[p|p|]|p]; [reflexivity .. | lia]. Qed.

Lemma wrapped_tick (s x : Z) (ins outs : list Row) :
  Tick WrappedProcNet (wrapped_ns s ([VBits 32 x] :: ins) outs) =
  (StatusOk, wrapped_ns (Z.land (s + x) (mask 32)) ins
               (outs ++ [[VBits 32 (Z.land (s + x) (mask 32))]])).
Proof. reflexivity. Qed.

Lemma dec_tick_run (c : Z) (p : positive) (ins outs : list Row) :
  Tick RunLengthDecodingNet (dec_ns c (Zpos p) ins outs) =
  (StatusOk, dec_ns c (Z.land (Zpos p - 1) (mask 32)) ins (outs ++ [[VBits 8 c]])).
Proof. reflexivity. Qed.

Lemma dec_tick_zero (c v : Z) (ins outs : list Row) :
  Tick RunLengthDecodingNet (dec_ns c 0 ([VBits 32 0; VBits 8 v] :: ins) outs) =
  (StatusOk, dec_ns v 0 ins outs).
Proof. reflexivity. Qed.

Lemma dec_tick_new (c : Z) (p : positive) (v : Z) (ins outs : list Row) :
  Tick RunLengthDecodingNet (dec_ns c 0 ([VBits 32 (Zpos p); VBits 8 v] :: ins) outs) =
  (StatusOk, dec_ns v (Z.land (Zpos p - 1) (mask 32)) ins (outs ++ [[VBits 8 v]])).
Proof. reflexivity. Qed.


Lemma iota_ticks (start step : Z) : forall n k rows,
  Ticks n (IotaNet start step) (iota_ns start step (Z.land (iota_val start step k) (mask 32)) rows)
  = Some (iota_ns start step (Z.land (iota_val start step (k + n)) (mask 32))
            (rows ++ map (fun j => row32 (iota_val start step j)) (seq k n))).
Proof.
  induction n as [|n IH]; intros k rows; simpl.
  - by rewrite Nat.add_0_r, app_nil_r.
  - rewrite iota_tick, land_add, iota_val_S, IH. do 2 f_equal.
    + f_equal. f_equal. lia.
    + by rewrite <- app_assoc.
Qed.

(** [CreateIotaProc] with any starting value and step: every tick
    succeeds, and after [n] ticks the channel holds exactly the values
    [start + k * step] (truncated to 32 bits) for [k = 0 .. n-1], in
    order. *)
Theorem Iota_ticks (start step : Z) (n : nat) :
  rows_on "iota_out" (CreateAndTick n (IotaNet start step) [])
  = Some (map (fun k => row32 (start + Z.of_nat k * step)) (seq 0 n)).
Proof.
  unfold CreateAndTick.
  replace (Create (IotaNet start step) [])
    with (Some (iota_ns start step (Z.land (iota_val start step 0) (mask 32)) []))
    by (unfold iota_val; rewrite Z.mul_0_l, Z.add_0_r; reflexivity).
  rewrite iota_ticks. reflexivity.
Qed.

Lemma ia_ticks (start step : Z) : forall n k acc outs,
  Ticks n (IotaAccumNet start step)
    (ia_ns start step (Z.land (iota_val start step k) (mask 32)) (Z.land acc (mask 32)) outs)
  = Some (ia_ns start step (Z.land (iota_val start step (k + n)) (mask 32))
            (Z.land (fold_left Z.add (map (iota_val start step) (seq k n)) acc) (mask 32))
            (outs ++ map row32 (running_sums acc (map (iota_val start step) (seq k n))))).
Proof.
  induction n as [|n IH]; intros k acc outs; simpl.
  - by rewrite Nat.add_0_r, app_nil_r.
  - rewrite ia_tick, land_add, land_add, iota_val_S, IH.
    rewrite Nat.add_succ_r, <- app_assoc. reflexivity.
Qed.

(** A counter with any starting value and step feeding [CreateAccumProc]:
    every tick succeeds, and after [n] ticks the accumulator's output
    holds exactly the running sums of the counter's first [n] values
    (truncated to 32 bits), in order. *)
Theorem IotaFeedingAccumulator_ticks (start step : Z) (n : nat) :
  rows_on "out" (CreateAndTick n (IotaAccumNet start step) [])
  = Some (map row32 (running_sums 0 (map (fun k => start + Z.of_nat k * step) (seq 0 n)))).
Proof.
  unfold CreateAndTick.
  replace (Create (IotaAccumNet start step) [])
    with (Some (ia_ns start step (Z.land (iota_val start step 0) (mask 32))
                  (Z.land 0 (mask 32)) []))
    by (unfold iota_val; rewrite Z.mul_0_l, Z.add_0_r; reflexivity).
  rewrite ia_ticks. reflexivity.
Qed.

Lemma accum_ticks : forall xs acc rest outs,
  Ticks (length xs) AccumNet (accum_ns (Z.land acc (mask 32)) (map row32 xs ++ rest) outs)
  = Some (accum_ns (Z.land (fold_left Z.add xs acc) (mask 32)) rest
            (outs ++ map row32 (running_sums acc xs))).
Proof.
  induction xs as [|x xs IH]; intros acc rest outs; cbn [length map app Ticks].
  - by rewrite app_nil_r.
  - rewrite (accum_tick _ (Z.land x (mask 32))), land_add, IH, <- app_assoc. reflexivity.
Qed.

(** [CreateAccumProc] reading an external input of any values: each of
    the first [length xs] ticks consumes one input row and succeeds; the
    output then holds exactly the running sums of the inputs (truncated to
    32 bits), in order, and the input is drained. *)
Theorem Accum_ticks (xs : list Z) :
  rows_on "out" (CreateAndTick (length xs) AccumNet [("in", map row32 xs)])
    = Some (map row32 (running_sums 0 xs)) /\
  rows_on "in" (CreateAndTick (length xs) AccumNet [("in", map row32 xs)]) = Some [].
Proof.
  unfold CreateAndTick.
  replace (Create AccumNet [("in", map row32 xs)])
    with (Some (accum_ns (Z.land 0 (mask 32)) (map row32 xs ++ []) [])) by (by rewrite app_nil_r).
  rewrite accum_ticks. split; reflexivity.
Qed.

Lemma pass_ticks : forall vs rest outs,
  Ticks (length vs) PassThroughNet (pass_ns (map (fun v => [v]) vs ++ rest) outs)
  = Some (pass_ns rest (outs ++ map (fun v => [v]) vs)).
Proof.
  induction vs as [|v vs IH]; intros rest outs; cbn [length map app Ticks].
  - by rewrite app_nil_r.
  - rewrite pass_tick, IH, <- app_assoc. reflexivity.
Qed.

(** [CreatePassThroughProc] reading an external input: after one
    successful tick per input row, the output holds exactly the input
    rows, in order, and the input is drained. *)
Theorem PassThrough_ticks (xs : list Z) :
  rows_on "out" (CreateAndTick (length xs) PassThroughNet [("in", map row32 xs)])
    = Some (map row32 xs) /\
  rows_on "in" (CreateAndTick (length xs) PassThroughNet [("in", map row32 xs)]) = Some [].
Proof.
  unfold CreateAndTick.
  replace (Create PassThroughNet [("in", map row32 xs)])
    with (Some (pass_ns (map (fun v => [v]) (map (fun x => UBits x 32) xs) ++ []) []))
    by (rewrite app_nil_r, map_map; reflexivity).
  replace (length xs) with (length (map (fun x => UBits x 32) xs)) by apply length_map.
  rewrite pass_ticks, map_map. split; reflexivity.
Qed.

Lemma filt_ticks : forall xs rest outs,
  Ticks (length xs) FilterNet (filt_ns (map row8 xs ++ rest) outs)
  = Some (filt_ns rest (outs ++ map row8 (List.filter Z.even xs))).
Proof.
  induction xs as [|x xs IH]; intros rest outs; cbn [length map app Ticks].
  - by rewrite app_nil_r.
  - rewrite (filt_tick (Z.land x (mask 8))) by (rewrite land_mask; apply Z.mod_pos_bound; lia).
    rewrite even_land_mask8. cbn [List.filter]. destruct (Z.even x); rewrite IH; [| reflexivity].
    by rewrite <- app_assoc.
Qed.

(** The filter proc of [RunLengthDecodingFilter] reading an external
    input of any 8-bit values: after one successful tick per input row, the
    output holds exactly the even inputs, in order (the odd ones are
    dropped), and the input is drained. *)
Theorem Filter_ticks (xs : list Z) :
  rows_on "output" (CreateAndTick (length xs) FilterNet [("decoded", map row8 xs)])
    = Some (map row8 (List.filter Z.even xs)) /\
  rows_on "decoded" (CreateAndTick (length xs) FilterNet [("decoded", map row8 xs)]) = Some [].
Proof.
  unfold CreateAndTick.
  replace (Create FilterNet [("decoded", map row8 xs)])
    with (Some (filt_ns (map row8 xs ++ []) [])) by (by rewrite app_nil_r).
  rewrite filt_ticks. split; reflexivity.
Qed.

Lemma wrapped_ticks : forall xs acc rest outs,
  Ticks (length xs) WrappedProcNet (wrapped_ns (Z.land acc (mask 32)) (map row32 xs ++ rest) outs)
  = Some (wrapped_ns (Z.land (fold_left Z.add xs acc) (mask 32)) rest
            (outs ++ map row32 (running_sums acc xs))).
Proof.
  induction xs as [|x xs IH]; intros acc rest outs; cbn [length map app Ticks].
  - by rewrite app_nil_r.
  - rewrite (wrapped_tick _ (Z.land x (mask 32))), land_add, IH, <- app_assoc. reflexivity.
Qed.

(** [WrappedProc] on any input values: after one successful tick per
    input row, [out] holds exactly the running sums of the inputs
    (truncated to 32 bits), in order, and [input] is drained. *)
Theorem WrappedProc_ticks (xs : list Z) :
  rows_on "out" (CreateAndTick (length xs) WrappedProcNet [("input", map row32 xs)])
    = Some (map row32 (running_sums 0 xs)) /\
  rows_on "input" (CreateAndTick (length xs) WrappedProcNet [("input", map row32 xs)]) = Some [].
Proof.
  unfold CreateAndTick.
  replace (Create WrappedProcNet [("input", map row32 xs)])
    with (Some (wrapped_ns (Z.land 0 (mask 32)) (map row32 xs ++ []) [])) by (by rewrite app_nil_r).
  rewrite wrapped_ticks. split; reflexivity.
Qed.


Lemma dec_run : forall n c ins outs, Z.of_nat n < 2 ^ 32 ->
  Ticks n RunLengthDecodingNet (dec_ns c (Z.of_nat n) ins outs)
  = Some (dec_ns c 0 ins (outs ++ repeat [VBits 8 c] n)).
Proof.
  induction n as [|n IH]; intros c ins outs Hn.
  - simpl. by rewrite app_nil_r.
  - change (Z.of_nat (S n)) with (Zpos (Pos.of_succ_nat n)).
    rewrite (Ticks_step n _ _ _ (dec_tick_run c (Pos.of_succ_nat n) ins outs)).
    rewrite Nat2Z.inj_succ in Hn.
    replace (Z.land (Zpos (Pos.of_succ_nat n) - 1) (mask 32)) with (Z.of_nat n)
      by (rewrite Zpos_P_of_succ_nat, land_small32; lia).
    rewrite IH by lia. by rewrite <- app_assoc.
Qed.

Lemma dec_rows : forall rows c ins outs,
  Forall (fun lv => 0 <= fst lv < 2 ^ 32) rows ->
  exists c', Ticks (rle_ticks rows) RunLengthDecodingNet (dec_ns c 0 (rle_rows rows ++ ins) outs)
             = Some (dec_ns c' 0 ins (outs ++ rle_decode rows)).
Proof.
  unfold rle_ticks, rle_rows, rle_decode.
  induction rows as [|[l v] rows IH]; intros c ins outs Hall.
  - exists c. simpl. by rewrite app_nil_r.
  - apply Forall_cons in Hall as [Hl Hall]. simpl in Hl.
    cbn [foldr map flat_map fst snd app]. rewrite Ticks_add.
    unfold rle_row, UBits in *. rewrite (land_small32 l Hl).
    destruct l as [|p|p]; [| | lia].
    + change (Nat.max 1 (Z.to_nat 0)) with 1%nat.
      rewrite (Ticks_step 0 _ _ _ (dec_tick_zero c _ _ _)). cbv beta iota.
      destruct (IH (Z.land v (mask 8)) ins outs Hall) as [c' Hc']. exists c'. exact Hc'.
    + destruct (Pos2Nat.is_succ p) as [m Hm].
      change (Z.to_nat (Zpos p)) with (Pos.to_nat p). rewrite Hm.
      change (Nat.max 1 (S m)) with (S m).
      rewrite (Ticks_step m _ _ _ (dec_tick_new c p _ _ _)).
      assert (Hpm : Zpos p = Z.of_nat (S m)) by (by rewrite <- Hm, positive_nat_Z).
      replace (Z.land (Zpos p - 1) (mask 32)) with (Z.of_nat m)
        by (rewrite land_small32; lia).
      rewrite dec_run by lia. cbv beta iota.
      destruct (IH (Z.land v (mask 8)) ins
                  ((outs ++ [[VBits 8 (Z.land v (mask 8))]]) ++ repeat [VBits 8 (Z.land v (mask 8))] m)
                  Hall) as [c' Hc'].
      exists c'. rewrite Hc', <- !app_assoc. reflexivity.
Qed.

(** [CreateRunLengthDecoderProc] on any (length, value) rows whose
    lengths fit in 32 bits: each of [rle_ticks rows] ticks succeeds (one
    per value sent, one per row of length zero), after which the output
    holds exactly each row's value repeated its length times, row by row,
    and the input is drained. *)
Theorem RunLengthDecoding_ticks (rows : list (Z * Z))
    (Hlen : Forall (fun lv => 0 <= fst lv < 2 ^ 32) rows) :
  rows_on "output" (CreateAndTick (rle_ticks rows) RunLengthDecodingNet [("in", rle_rows rows)])
    = Some (rle_decode rows) /\
  rows_on "in" (CreateAndTick (rle_ticks rows) RunLengthDecodingNet [("in", rle_rows rows)])
    = Some [].
Proof.
  unfold CreateAndTick.
  replace (Create RunLengthDecodingNet [("in", rle_rows rows)])
    with (Some (dec_ns 0 0 (rle_rows rows ++ []) [])) by (by rewrite app_nil_r).
  destruct (dec_rows rows 0 [] [] Hlen) as [c' Hc']. rewrite Hc'. split; reflexivity.
Qed.

(** The rows of the [RunLengthDecoding] test. *)
Lemma RunLengthDecoding_ticks_witness :
  let rows := [(1, 42); (3, 123); (0, 55); (0, 66); (2, 20)] in
  Forall (fun lv => 0 <= fst lv < 2 ^ 32) rows /\
  rows_on "output" (CreateAndTick (rle_ticks rows) RunLengthDecodingNet [("in", rle_rows rows)])
    = Some (rle_decode rows).
Proof.
  intros rows.
  assert (H : Forall (fun lv => 0 <= fst lv < 2 ^ 32) rows) by (repeat constructor; simpl; lia).
  split; [exact H | exact (proj1 (RunLengthDecoding_ticks rows H))].
Defined.
